(** * MapDataset: the map stage of the tf.data pipeline

    A shallow embedding of [tensorflow/core/kernels/data/map_dataset_op.cc]:
    the two [map_func] closures built by [MapDatasetOp::MakeDataset], the
    methods of [MapDatasetOp::Dataset::Iterator] and
    [Dataset::AsGraphDefInternal], followed by the properties of the
    iterator protocol that the design document states about them and by
    further properties read off the code.

    Conventions.
    - A C++ method that mutates objects through pointers is a function that
      takes the objects' states and returns the new ones.
    - An out-parameter ([std::vector<Tensor>* out_tensors],
      [bool* end_of_sequence]) is an argument (the cell's content on entry)
      and a component of the result (its content on return).
    - Indexing a [std::vector] out of range is undefined behaviour; such a
      run has no result ([None]).
    - [IteratorContext* ctx] is only ever forwarded by this file; what the
      callees do with it is part of their abstract state. *)

From Stdlib Require Import ZArith String.
From stdpp Require Import base option list.

Set Default Proof Using "Type*".
Local Open Scope Z_scope.

(** ** Status values *)

(** Modelled from the spec: [Status] and its error codes are declared in
    headers outside this file.  The design distinguishes "no error" from
    failures, and among failures the "distinguished deliberate-termination
    kind" ([OUT_OF_RANGE]) from "any other failure"; a failure carries its
    "underlying cause" (the message). *)
Inductive Code : Set :=
  | CANCELLED | UNKNOWN | INVALID_ARGUMENT | DEADLINE_EXCEEDED | NOT_FOUND
  | ALREADY_EXISTS | PERMISSION_DENIED | RESOURCE_EXHAUSTED
  | FAILED_PRECONDITION | ABORTED | OUT_OF_RANGE | UNIMPLEMENTED | INTERNAL
  | UNAVAILABLE | DATA_LOSS | UNAUTHENTICATED.

Inductive Status : Set :=
  | OK
  | Error (code : Code) (msg : string).

Module errors.

Definition ok (s : Status) : bool :=
  match s with OK => true | Error _ _ => false end.

Definition IsOutOfRange (s : Status) : bool :=
  match s with Error OUT_OF_RANGE _ => true | _ => false end.

Definition OutOfRange (msg : string) : Status := Error OUT_OF_RANGE msg.

End errors.

(** ** Tensors and ownership *)

(** Modelled from the spec: a record is an "ordered sequence of typed
    values"; to "relocate (transfer ownership)" a value leaves the slot it
    came from without the value, to "duplicate" it leaves the slot as it
    was.  [Holds v] is a tensor owning (a reference to) the buffer [v],
    [MovedFrom] what [std::move] leaves behind. *)
Inductive Tensor (V : Type) : Type :=
  | Holds (v : V)
  | MovedFrom.
Arguments Holds {V} v.
Arguments MovedFrom {V}.

(** ** The collaborators' interfaces *)

(** What one call of the upstream iterator's [GetNext(ctx, &args,
    end_of_sequence)] leaves behind. *)
Record Pulled (V I : Type) : Type := MkPulled {
  p_status : Status;
  p_args : list (Tensor V);
  p_eos : bool;
  p_next : I
}.
Arguments MkPulled {V I}.
Arguments p_status {V I}.
Arguments p_args {V I}.
Arguments p_eos {V I}.
Arguments p_next {V I}.

(** [IteratorBase], as far as this file uses it.  [GetNext i eos] is
    [input_impl_->GetNext(ctx, &args, end_of_sequence)] called with a fresh
    empty [args] and with [eos] in the caller's flag.  [SaveInput] and
    [RestoreInput] are the two protected helpers through which an iterator
    saves and restores its input: they are the upstream iterator's save and
    restore. *)
Class IteratorBase (V W R I : Type) : Type := {
  GetNext : I -> bool -> Pulled V I;
  SaveInput : W -> I -> Status * W * I;
  RestoreInput : R -> I -> Status * I
}.

(** [CapturedFunction], as far as this file uses it. *)
Class CapturedFunction (V E : Type) : Type := {
  Instantiate : E -> Status * E;
  Run : E -> list (Tensor V) -> list (Tensor V) ->
        Status * list (Tensor V) * E;
  captured_inputs : E -> list (Tensor V)
}.

(** [MapIteratorFunction]: the [std::function] is called with the captured
    function's state, the arguments (by value) and the content of
    [*out_tensors]; it returns a status, the new content of [*out_tensors]
    and the captured function's new state. *)
Definition MapIteratorFunction (V E : Type) : Type :=
  E -> list (Tensor V) -> list (Tensor V) ->
  option (Status * list (Tensor V) * E).

(** ** MakeDataset: the two closures *)

(** The values of an [int]. *)
Definition is_int (z : Z) : Prop := - 2 ^ 31 <= z < 2 ^ 31.

(** The conversion of an [int] to [size_t] in [indices[i] < num_args] and
    [indices[i] - num_args]. *)
Definition to_size_t (z : Z) : Z := z mod 2 ^ 64.

(** [v[k]] for a [size_t] index [k]; out of range it has no value. *)
Definition vector_at {A : Type} (v : list A) (k : Z) : option A :=
  if k <? Z.of_nat (length v) then v !! Z.to_nat k else None.

(** The locals of the short-circuit closure that change while it runs: its
    by-value parameter [args] and the vector behind [out_tensors]. *)
Record Frame (V : Type) : Type := MkFrame {
  args : list (Tensor V);
  out_tensors : list (Tensor V)
}.
Arguments MkFrame {V}.
Arguments args {V}.
Arguments out_tensors {V}.

Section MakeDataset.
Context {V E : Type} `{!CapturedFunction V E}.

(** [indices.empty()]: the closure forwards to [CapturedFunction::Run]. *)
Definition full_invoke : MapIteratorFunction V E :=
  fun e a out => Some (Run e a out).

Definition push_back (t : Tensor V) (fr : Frame V) : Frame V :=
  MkFrame (args fr) (out_tensors fr ++ [t]).

(** One iteration of the loop, at position [i] with [indices[i] = idx]. *)
Definition short_circuit_step (captured : list (Tensor V)) (num_args : nat)
    (can_move : list bool) (i : nat) (idx : Z) (fr : Frame V)
    : option (Frame V) :=
  if to_size_t idx <? Z.of_nat num_args then
    b ← can_move !! i;
    t ← vector_at (args fr) (to_size_t idx);
    if b : bool then
      Some (push_back t
              (MkFrame (<[Z.to_nat (to_size_t idx) := MovedFrom]> (args fr))
                       (out_tensors fr)))
    else Some (push_back t fr)
  else
    t ← vector_at captured (to_size_t idx - Z.of_nat num_args);
    Some (push_back t fr).

(** [for (size_t i = 0; i < indices.size(); ++i)], entered at position [i]
    with [rest] the positions still to visit. *)
Fixpoint short_circuit_loop (captured : list (Tensor V)) (num_args : nat)
    (can_move : list bool) (rest : list Z) (i : nat) (fr : Frame V)
    : option (Frame V) :=
  match rest with
  | [] => Some fr
  | idx :: rest' =>
      fr' ← short_circuit_step captured num_args can_move i idx fr;
      short_circuit_loop captured num_args can_move rest' (S i) fr'
  end.

(** The body of the short-circuit closure, up to its [return]. *)
Definition short_circuit_body (indices : list Z) (can_move : list bool)
    (e : E) (a out : list (Tensor V)) : option (Frame V) :=
  short_circuit_loop (captured_inputs e) (length a) can_move indices 0%nat
    (MkFrame a out).

(** [!indices.empty()]: the closure selects the outputs itself. *)
Definition short_circuit (indices : list Z) (can_move : list bool)
    : MapIteratorFunction V E :=
  fun e a out =>
    fr ← short_circuit_body indices can_move e a out;
    Some (OK, out_tensors fr, e).

(** The choice [MakeDataset] makes, given [ComputeMoveVector]. *)
Definition MakeDataset_map_func (ComputeMoveVector : list Z -> list bool)
    (indices : list Z) : MapIteratorFunction V E :=
  match indices with
  | [] => full_invoke
  | _ => short_circuit indices (ComputeMoveVector indices)
  end.

End MakeDataset.

(** ** Dataset::Iterator *)

(** The objects an iterator works on: its own [input_impl_] and the
    captured function it reaches through [dataset()->captured_func_] (and,
    in [map_func_], through [raw_captured_func]).  The iterator has no other
    data member that changes: [map_func_] is [const]. *)
Record Iterator (I E : Type) : Type := MkIterator {
  input_impl_ : I;
  captured_func_ : E
}.
Arguments MkIterator {I E}.
Arguments input_impl_ {I E}.
Arguments captured_func_ {I E}.

(** What a call of [GetNextInternal] returns and leaves behind. *)
Record Result (V I E : Type) : Type := MkResult {
  r_status : Status;
  r_out_tensors : list (Tensor V);
  r_end_of_sequence : bool;
  r_iter : Iterator I E
}.
Arguments MkResult {V I E}.
Arguments r_status {V I E}.
Arguments r_out_tensors {V I E}.
Arguments r_end_of_sequence {V I E}.
Arguments r_iter {V I E}.

Section Iterator.
Context {V W R I E : Type}.
Context `{!IteratorBase V W R I} `{!CapturedFunction V E}.

(** [Initialize]: [MakeIterator] is the upstream dataset's factory, which
    fills [input_impl_]; [TF_RETURN_IF_ERROR] returns its status when it
    is not OK. *)
Definition Initialize (MakeIterator : Status * I) (e : E)
    : Status * option (Iterator I E) :=
  let '(s, i) := MakeIterator in
  if errors.ok s then
    let '(s', e') := Instantiate e in (s', Some (MkIterator i e'))
  else (s, None).

Definition GetNextInternal (map_func_ : MapIteratorFunction V E)
    (it : Iterator I E) (out : list (Tensor V)) (end_of_sequence : bool)
    : option (Result V I E) :=
  let p := GetNext (input_impl_ it) end_of_sequence in
  let e := captured_func_ it in
  if negb (errors.ok (p_status p)) then
    (* TF_RETURN_IF_ERROR *)
    Some (MkResult (p_status p) out (p_eos p) (MkIterator (p_next p) e))
  else if p_eos p then
    Some (MkResult OK out (p_eos p) (MkIterator (p_next p) e))
  else
    '(s, out', e') ← map_func_ e (p_args p) out;
    if errors.IsOutOfRange s then
      Some (MkResult OK out' true (MkIterator (p_next p) e'))
    else
      Some (MkResult s out' (p_eos p) (MkIterator (p_next p) e')).

Definition SaveInternal (writer : W) (it : Iterator I E)
    : Status * W * Iterator I E :=
  let '(s, w', i') := SaveInput writer (input_impl_ it) in
  let it' := MkIterator i' (captured_func_ it) in
  if negb (errors.ok s) then (s, w', it') else (OK, w', it').

Definition RestoreInternal (reader : R) (it : Iterator I E)
    : Status * Iterator I E :=
  let '(s, i') := RestoreInput reader (input_impl_ it) in
  let it' := MkIterator i' (captured_func_ it) in
  if negb (errors.ok s) then (s, it') else (OK, it').

(** *** Sequences of calls from one thread *)

(** A caller's consecutive [GetNext] calls; each call comes with the
    content of the caller's [out_tensors] and [end_of_sequence] on
    entry. *)
Fixpoint GetNext_calls (map_func_ : MapIteratorFunction V E)
    (it : Iterator I E) (calls : list (list (Tensor V) * bool))
    : option (list (Result V I E)) :=
  match calls with
  | [] => Some []
  | (out, eos) :: calls' =>
      r ← GetNextInternal map_func_ it out eos;
      rs ← GetNext_calls map_func_ (r_iter r) calls';
      Some (r :: rs)
  end.

(** The iterator as the [n]-th call of such a sequence finds it. *)
Definition iter_before (it : Iterator I E) (rs : list (Result V I E))
    (n : nat) : Iterator I E :=
  from_option r_iter it (last (take n rs)).

(** The upstream iterator pulled on its own, once per flag. *)
Fixpoint upstream_pulls (i : I) (flags : list bool) : list (Pulled V I) :=
  match flags with
  | [] => []
  | eos :: flags' =>
      let p := GetNext i eos in p :: upstream_pulls (p_next p) flags'
  end.

(** *** Vocabulary of the statements *)

(** The slot a plan entry reads, as found in a frame of the short-circuit
    closure and in the captured function. *)
Definition source_slot (num_args : nat) (fr : Frame V) (e : E) (idx : Z)
    : option (Tensor V) :=
  if to_size_t idx <? Z.of_nat num_args then
    vector_at (args fr) (to_size_t idx)
  else vector_at (captured_inputs e) (to_size_t idx - Z.of_nat num_args).

(** The upstream iterator reports the end of the sequence from [i] on. *)
Definition exhausted (i : I) : Prop :=
  forall eos, p_status (GetNext i eos) = OK /\ p_eos (GetNext i eos) = true.

(** The upstream iterator keeps reporting the end of the sequence once
    it has. *)
Definition end_is_final : Prop :=
  forall i eos,
    p_status (GetNext i eos) = OK -> p_eos (GetNext i eos) = true ->
    exhausted (p_next (GetNext i eos)).

(** Some plan entry with [can_move] set selects slot [k] of the
    arguments. *)
Definition relocates (indices : list Z) (can_move : list bool) (k : nat)
    : Prop :=
  exists i, indices !! i = Some (Z.of_nat k) /\ can_move !! i = Some true.

(** The value a plan entry selects before the closure has run. *)
Definition selected (a : list (Tensor V)) (e : E) (idx : Z)
    : option (Tensor V) :=
  source_slot (length a) (MkFrame a []) e idx.

(** The invariant of the short-circuit loop, called on the arguments [a]
    and the output vector [out], after the entries [done] of the plan:
    the outputs pushed so far are the values selected by [done], and the
    slots of the arguments relocated so far are those selected by an
    entry of [done] with [can_move] set. *)
Definition short_circuit_inv (can_move : list bool) (e : E)
    (a out : list (Tensor V)) (done : list Z) (fr : Frame V) : Prop :=
  length (args fr) = length a
  /\ (exists sel, Forall2 (fun idx t => selected a e idx = Some t) done sel
                  /\ out_tensors fr = out ++ sel)
  /\ (forall k t, a !! k = Some t ->
        (relocates done can_move k -> args fr !! k = Some MovedFrom)
        /\ (~ relocates done can_move k -> args fr !! k = Some t)).

End Iterator.

(** ** The short-circuit planner's move vector *)

(** Modelled from the spec: [ComputeMoveVector] is declared in
    dataset_utils.h and defined outside this file.  "set [can_move[i] =
    (count of positions j with source_index[j] == source_index[i]) == 1]". *)
Definition ComputeMoveVector (indices : list Z) : list bool :=
  map (fun idx => Nat.eqb (count_occ Z.eq_dec indices idx) 1) indices.

(** A plan never relocates a value that a later entry still reads: the
    property of a move vector that makes the short-circuit closure
    value-preserving. *)
Definition moves_last_use (indices : list Z) (can_move : list bool) : Prop :=
  forall i j idx, (i < j)%nat ->
    indices !! i = Some idx -> indices !! j = Some idx ->
    can_move !! i = Some false.

(** Every entry is "valid for the current argument count plus closure-list
    length". *)
Definition valid_plan (indices : list Z) (num_args num_captured : nat)
    : Prop :=
  Forall (fun idx => 0 <= idx < Z.of_nat num_args + Z.of_nat num_captured)
         indices.

(** ** Checkpoints over a sequence of calls *)

Section Checkpoint.
Context {V W R I E : Type}.
Context `{!IteratorBase V W R I}.

(** The upstream iterator after it has been pulled once per flag. *)
Fixpoint upstream_after (i : I) (flags : list bool) : I :=
  match flags with
  | [] => i
  | eos :: flags' => upstream_after (p_next (GetNext i eos)) flags'
  end.

(** The upstream iterator's restore undoes the pulls made since its save:
    restoring from what a successful save has written ([reader_of] turns
    the written state into the reader that reads it back) gives the
    iterator the save has left. *)
Definition restores_saved (reader_of : W -> R) : Prop :=
  forall (writer w' : W) (i i1 : I) (flags : list bool),
    SaveInput writer i = (OK, w', i1) ->
    RestoreInput (reader_of w') (upstream_after i1 flags) = (OK, i1).

End Checkpoint.

(** ** Dataset *)

Module Dataset.

(** The members of [Dataset] that [AsGraphDefInternal] reads. *)
Record t (D F E : Type) : Type := Mk {
  input_ : D;
  func_ : F;
  use_inter_op_parallelism_ : bool;
  captured_func_ : E
}.
Arguments Mk {D F E}.
Arguments input_ {D F E}.
Arguments func_ {D F E}.
Arguments use_inter_op_parallelism_ {D F E}.
Arguments captured_func_ {D F E}.

(** [NameAttrList::name] and [Tensor::dtype]. *)
Class GraphValues (V F T : Type) : Type := {
  name : F -> string;
  dtype : Tensor V -> T
}.

(** [DatasetGraphDefBuilder], as far as [AsGraphDefInternal] uses it, over
    the builder's state [B], the values [N] of a [Node*], attribute values
    [A] and the dataset type [S] of [this].  A function that is handed the
    address of a local [Node*] is given by what it leaves there;
    [AddDataset] is handed the caller's [output] and so takes its content
    too.  [BuildAttrValue] returns nothing and fills the attribute from the
    value alone. *)
Class DatasetGraphDefBuilder (V B N A F D T S : Type) : Type := {
  AddFunction : B -> string -> Status * B;
  AddInputDataset : B -> D -> Status * N * B;
  AddTensor : B -> Tensor V -> Status * N * B;
  BuildAttrValue_func : F -> A;
  BuildAttrValue_types : list T -> A;
  BuildAttrValue_bool : bool -> A;
  AddDataset : B -> S -> list (nat * N) -> list (nat * list N) ->
               list (string * A) -> N -> Status * N * B
}.

Section AsGraphDefInternal.
Context {V B N A F D T E : Type}.
Context `{!CapturedFunction V E} `{!GraphValues V F T}.
Context `{!DatasetGraphDefBuilder V B N A F D T (t D F E)}.


(** The attributes handed to [AddDataset]. *)
Definition attrs (d : t D F E) (other_arguments_types : list T)
    : list (string * A) :=
  [("f"%string, BuildAttrValue_func (func_ d));
   ("Targuments"%string, BuildAttrValue_types other_arguments_types);
   ("use_inter_op_parallelism"%string,
    BuildAttrValue_bool (use_inter_op_parallelism_ d))].


End AsGraphDefInternal.

End Dataset.

(** ** Concrete collaborators

    A small upstream iterator and a small captured function on which the
    definitions above can be run. *)
Module Fixture.

(** An upstream iterator over a fixed list of pulls, in the manner of a
    tensor-slice iterator: an item is either a record or a failure. *)
Record Cursor : Type := MkCursor {
  items : list (Status * list (Tensor Z));
  pos : nat
}.

Definition advance (c : Cursor) : Cursor := MkCursor (items c) (S (pos c)).

Definition Cursor_GetNext (c : Cursor) (eos : bool) : Pulled Z Cursor :=
  match items c !! pos c with
  | Some (OK, record) => MkPulled OK record false (advance c)
  | Some (err, _) => MkPulled err [] eos (advance c)
  | None => MkPulled OK [] true c
  end.

#[global] Instance Cursor_iterator : IteratorBase Z (list nat) nat Cursor := {
  GetNext := Cursor_GetNext;
  SaveInput w c := (OK, w ++ [pos c], c);
  RestoreInput r c := (OK, MkCursor (items c) r)
}.

(** A captured function that counts its instantiations and runs.  It
    stops the iteration on a record that starts with 0, rejects one that
    starts with a negative number and returns any other record as it is. *)
Record Counting : Type := MkCounting {
  instantiations : nat;
  runs : nat;
  closure : list (Tensor Z)
}.

Definition ran (e : Counting) : Counting :=
  MkCounting (instantiations e) (S (runs e)) (closure e).

Definition Counting_Run (e : Counting) (a out : list (Tensor Z))
    : Status * list (Tensor Z) * Counting :=
  match a with
  | Holds z :: _ =>
      if z =? 0 then (errors.OutOfRange "stop", out, ran e)
      else if z <? 0 then (Error INVALID_ARGUMENT "negative", out, ran e)
      else (OK, out ++ a, ran e)
  | _ => (OK, out ++ a, ran e)
  end.

#[global] Instance Counting_function : CapturedFunction Z Counting := {
  Instantiate e := (OK, MkCounting (S (instantiations e)) (runs e) (closure e));
  Run := Counting_Run;
  captured_inputs := closure
}.

Definition record (zs : list Z) : list (Tensor Z) := Holds <$> zs.

Definition fresh (closure : list Z) : Counting :=
  MkCounting 1 0 (record closure).

Definition over (records : list (list Z)) : Cursor :=
  MkCursor ((fun zs => (OK, record zs)) <$> records) 0.

(** A caller's empty [out_tensors] and cleared [end_of_sequence]. *)
Definition fresh_call : list (Tensor Z) * bool := ([], false).

(** Three records, the second of which makes the captured function stop
    the iteration. *)
Definition stops_early : Iterator Cursor Counting :=
  MkIterator (over [[1; 2]; [0; 5]; [3]]) (fresh []).

(** Two records of two values and two captured inputs. *)
Definition projecting : Iterator Cursor Counting :=
  MkIterator (over [[10; 11]; [20; 21]]) (fresh [7; 8]).

(** An upstream iterator that has nothing to yield. *)
Definition empty_upstream : Iterator Cursor Counting :=
  MkIterator (over []) (fresh []).

(** An upstream iterator whose first pull fails. *)
Definition failing_upstream : Iterator Cursor Counting :=
  MkIterator (MkCursor [(Error UNAVAILABLE "io", [])] 0) (fresh []).

(** What a writer that was handed to [Cursor_iterator]'s save gives a
    reader: the position written last. *)
Definition read_back (w : list nat) : nat := default 0%nat (last w).

(** A graph builder that logs the calls it gets and numbers the nodes it
    makes; it refuses a moved-from tensor. *)
Inductive Call : Type :=
  | CallAddFunction (f : string)
  | CallAddInputDataset (input : string)
  | CallAddTensor (t : Tensor Z)
  | CallAddDataset (inputs : list (nat * nat))
      (list_inputs : list (nat * list nat)) (attr_names : list string).

#[global] Instance Logging_values : Dataset.GraphValues Z string string := {
  Dataset.name f := f;
  Dataset.dtype t := match t with Holds _ => "DT_INT64" | MovedFrom => "DT_INVALID" end%string
}.

#[global] Instance Logging_builder
  : Dataset.DatasetGraphDefBuilder Z (list Call) nat string string string string
      (Dataset.t string string Counting) := {
  Dataset.AddFunction b f := (OK, b ++ [CallAddFunction f]);
  Dataset.AddInputDataset b input :=
    (OK, length b, b ++ [CallAddInputDataset input]);
  Dataset.AddTensor b t :=
    match t with
    | Holds _ => (OK, length b, b ++ [CallAddTensor t])
    | MovedFrom =>
        (Error INVALID_ARGUMENT "moved", 0%nat, b ++ [CallAddTensor t])
    end;
  Dataset.BuildAttrValue_func f := f;
  Dataset.BuildAttrValue_types ts := String.concat "," ts;
  Dataset.BuildAttrValue_bool b := (if b then "true" else "false")%string;
  Dataset.AddDataset b d inputs list_inputs attrs output :=
    (OK, length b, b ++ [CallAddDataset inputs list_inputs attrs.*1])
}.


End Fixture.

(** * Properties *)

(** ** One call of [GetNextInternal] *)

Section GetNextInternal_facts.
Context {V W R I E : Type}.
Context `{!IteratorBase V W R I} `{!CapturedFunction V E}.

Implicit Types (it : Iterator I E) (out a : list (Tensor V)).
Implicit Types (map_func : MapIteratorFunction V E).

(** The three ways through [GetNextInternal], by what the upstream pull
    left behind. *)
Lemma GetNextInternal_pull_failed map_func it out eos p :
  GetNext (input_impl_ it) eos = p ->
  p_status p <> OK ->
  GetNextInternal map_func it out eos
  = Some (MkResult (p_status p) out (p_eos p)
            (MkIterator (p_next p) (captured_func_ it))).
Proof.
  intros <- Hs. unfold GetNextInternal.
  destruct (p_status _); [congruence | reflexivity].
Qed.

Lemma GetNextInternal_pull_end map_func it out eos p :
  GetNext (input_impl_ it) eos = p ->
  p_status p = OK -> p_eos p = true ->
  GetNextInternal map_func it out eos
  = Some (MkResult OK out true (MkIterator (p_next p) (captured_func_ it))).
Proof.
  intros <- Hs He. unfold GetNextInternal. by rewrite Hs, He.
Qed.

Lemma GetNextInternal_pull_record map_func it out eos p :
  GetNext (input_impl_ it) eos = p ->
  p_status p = OK -> p_eos p = false ->
  GetNextInternal map_func it out eos
  = '(s, out', e') ← map_func (captured_func_ it) (p_args p) out;
    Some (if errors.IsOutOfRange s
          then MkResult OK out' true (MkIterator (p_next p) e')
          else MkResult s out' false (MkIterator (p_next p) e')).
Proof.
  intros <- Hs He. unfold GetNextInternal. rewrite Hs, He. simpl.
  destruct (map_func _ _ _) as [[[s out'] e']|]; [simpl|reflexivity].
  by destruct (errors.IsOutOfRange s).
Qed.

Lemma Status_ok_dec (s : Status) : {s = OK} + {s <> OK}.
Proof. destruct s; [by left | by right]. Qed.

Lemma IsOutOfRange_not_ok s : errors.IsOutOfRange s = true -> s <> OK.
Proof. by destruct s. Qed.

(** C1.  When the upstream pull succeeds with a record and the map
    function is the closure that [MakeDataset] builds for an empty index
    list (the one that calls [CapturedFunction::Run]): if [Run] returns an
    [OutOfRange] status, [GetNextInternal] returns OK with
    [end_of_sequence = true]; if [Run] returns any other status, that
    status is returned as it is. *)
Theorem GetNextInternal_executor_status
    (move_vector : list Z -> list bool) it out eos a i' s out' e' :
  GetNext (input_impl_ it) eos = MkPulled OK a false i' ->
  Run (captured_func_ it) a out = (s, out', e') ->
  (errors.IsOutOfRange s = true ->
     GetNextInternal (MakeDataset_map_func move_vector []) it out eos
     = Some (MkResult OK out' true (MkIterator i' e')))
  /\ (errors.IsOutOfRange s = false ->
     GetNextInternal (MakeDataset_map_func move_vector []) it out eos
     = Some (MkResult s out' false (MkIterator i' e'))).
Proof.
  intros Hpull Hrun.
  rewrite (GetNextInternal_pull_record _ _ _ _ _ Hpull eq_refl eq_refl).
  simpl. unfold full_invoke. rewrite Hrun. simpl.
  split; intros ->; reflexivity.
Qed.

(** C5.  When the upstream pull reports end of sequence, [GetNextInternal]
    returns OK with [end_of_sequence = true] whatever the map function is:
    the caller's [out_tensors] and the captured function are as they
    were. *)
Theorem GetNextInternal_upstream_end map_func it out eos a i' :
  GetNext (input_impl_ it) eos = MkPulled OK a true i' ->
  GetNextInternal map_func it out eos
  = Some (MkResult OK out true (MkIterator i' (captured_func_ it))).
Proof.
  intros Hpull.
  apply (GetNextInternal_pull_end _ _ _ _ _ Hpull); reflexivity.
Qed.

(** C10.  When the upstream pull fails, [GetNextInternal] returns the
    upstream status whatever the map function is: the caller's
    [out_tensors] and the captured function are as they were. *)
Theorem GetNextInternal_upstream_error map_func it out eos s a eos' i' :
  GetNext (input_impl_ it) eos = MkPulled s a eos' i' ->
  s <> OK ->
  GetNextInternal map_func it out eos
  = Some (MkResult s out eos' (MkIterator i' (captured_func_ it))).
Proof.
  intros Hpull Hs.
  apply (GetNextInternal_pull_failed _ _ _ _ _ Hpull); exact Hs.
Qed.

(** C9.  For a call that returns [r] after the upstream pull [p]: if the
    flag is true on return and either the upstream pull had left it false
    (so this stage set it) or the upstream pull had succeeded, the status
    is OK; and if the status is not OK, the flag is as the upstream pull
    left it, which is false when the pull had succeeded. *)
Theorem GetNextInternal_end_excludes_error map_func it out eos p r :
  GetNext (input_impl_ it) eos = p ->
  GetNextInternal map_func it out eos = Some r ->
  (r_end_of_sequence r = true ->
     p_eos p = false \/ p_status p = OK -> r_status r = OK)
  /\ (r_status r <> OK ->
     r_end_of_sequence r = p_eos p
     /\ (p_status p = OK -> r_end_of_sequence r = false)).
Proof.
  intros Hpull Hr.
  destruct (Status_ok_dec (p_status p)) as [Hs|Hs].
  - destruct (p_eos p) eqn:He.
    + rewrite (GetNextInternal_pull_end _ _ _ _ _ Hpull Hs He) in Hr.
      injection Hr as <-. simpl. by split; [|intros []].
    + rewrite (GetNextInternal_pull_record _ _ _ _ _ Hpull Hs He) in Hr.
      destruct (map_func _ _ _) as [[[s out'] e']|]; [|done].
      simpl in Hr. injection Hr as <-.
      destruct (errors.IsOutOfRange s) eqn:Hoor; simpl.
      * by split; [|intros []].
      * split; [done|]. by intros _.
  - rewrite (GetNextInternal_pull_failed _ _ _ _ _ Hpull Hs) in Hr.
    injection Hr as <-. simpl. split; [|done].
    intros Ht [Hf|Hok]; congruence.
Qed.

End GetNextInternal_facts.

(** ** Checkpointing *)

Section Checkpoint_facts.
Context {V W R I E : Type}.
Context `{!IteratorBase V W R I} `{!CapturedFunction V E}.

Implicit Types (it : Iterator I E).

(** C7.  [SaveInternal] is the upstream iterator's save: it returns the
    status the upstream save returns, leaves the writer as the upstream
    save leaves it, and changes nothing of the iterator but what the
    upstream save changes of [input_impl_]. *)
Theorem SaveInternal_is_SaveInput (writer : W) it s w' i' :
  SaveInput writer (input_impl_ it) = (s, w', i') ->
  SaveInternal writer it = (s, w', MkIterator i' (captured_func_ it)).
Proof.
  intros Hsave. unfold SaveInternal. rewrite Hsave.
  by destruct s.
Qed.

(** C4, as the code has it.  [RestoreInternal] is the upstream iterator's
    restore and nothing else: it returns the status the upstream restore
    returns, and the captured function is left as it was, neither
    instantiated again nor otherwise touched. *)
Theorem RestoreInternal_is_RestoreInput (reader : R) it s i' :
  RestoreInput reader (input_impl_ it) = (s, i') ->
  RestoreInternal reader it = (s, MkIterator i' (captured_func_ it)).
Proof.
  intros Hrestore. unfold RestoreInternal. rewrite Hrestore.
  by destruct s.
Qed.

End Checkpoint_facts.

(** ** Sequences of calls *)

Section GetNext_calls_facts.
Context {V W R I E : Type}.
Context `{!IteratorBase V W R I} `{!CapturedFunction V E}.

Implicit Types (it : Iterator I E) (out a : list (Tensor V)).
Implicit Types (map_func : MapIteratorFunction V E).
Implicit Types (calls : list (list (Tensor V) * bool)).
Implicit Types (rs : list (Result V I E)).

(** Every call pulls the upstream iterator exactly once. *)
Lemma GetNextInternal_pulls_once map_func it out eos r :
  GetNextInternal map_func it out eos = Some r ->
  input_impl_ (r_iter r) = p_next (GetNext (input_impl_ it) eos).
Proof.
  unfold GetNextInternal. intros Hr.
  destruct (negb _); [by injection Hr as <-|].
  destruct (p_eos _); [by injection Hr as <-|].
  destruct (map_func _ _ _) as [[[s out'] e']|]; [simpl in Hr|done].
  destruct (errors.IsOutOfRange s); by injection Hr as <-.
Qed.

(** A call that returns a record has pulled one and has had it mapped. *)
Lemma GetNextInternal_record_inv map_func it out eos r :
  GetNextInternal map_func it out eos = Some r ->
  r_status r = OK -> r_end_of_sequence r = false ->
  let p := GetNext (input_impl_ it) eos in
  p_status p = OK /\ p_eos p = false
  /\ exists e', map_func (captured_func_ it) (p_args p) out
                = Some (OK, r_out_tensors r, e').
Proof.
  unfold GetNextInternal. intros Hr Hs He.
  destruct (p_status _) eqn:Hp; simpl in Hr;
    [|injection Hr as <-; discriminate Hs].
  destruct (p_eos _) eqn:Hpe; [injection Hr as <-; discriminate He|].
  destruct (map_func _ _ _) as [[[s out'] e']|]; [simpl in Hr|done].
  destruct (errors.IsOutOfRange s) eqn:Hoor; injection Hr as <-;
    [discriminate He|].
  simpl in *. subst s. eauto.
Qed.

Lemma iter_before_0 it rs : iter_before it rs 0 = it.
Proof. unfold iter_before. by rewrite take_0. Qed.

Lemma iter_before_S it r rs n :
  iter_before it (r :: rs) (S n) = iter_before (r_iter r) rs n.
Proof.
  unfold iter_before. rewrite firstn_cons, last_cons.
  by destruct (last (take n rs)).
Qed.

(** C6.  In a sequence of consecutive calls, whenever the [n]-th call
    returns a record, the upstream iterator's [n]-th pull has succeeded
    with a record and the call's output is what the map function makes of
    that record (from the contents of the caller's [out_tensors], with
    the captured function as the earlier calls left it). *)
Theorem GetNext_calls_fifo map_func it calls rs n r :
  GetNext_calls map_func it calls = Some rs ->
  rs !! n = Some r ->
  r_status r = OK -> r_end_of_sequence r = false ->
  exists out eos p e',
    calls !! n = Some (out, eos)
    /\ upstream_pulls (input_impl_ it) (calls.*2) !! n = Some p
    /\ p_status p = OK /\ p_eos p = false
    /\ map_func (captured_func_ (iter_before it rs n)) (p_args p) out
       = Some (OK, r_out_tensors r, e').
Proof.
  revert it rs n.
  induction calls as [|[out eos] calls IH]; intros it rs n Hrun Hn Hs He.
  - injection Hrun as <-. done.
  - simpl in Hrun.
    destruct (GetNextInternal map_func it out eos) as [r0|] eqn:Hr0;
      [simpl in Hrun|done].
    destruct (GetNext_calls map_func (r_iter r0) calls) as [rs'|] eqn:Hrs';
      [simpl in Hrun|done].
    injection Hrun as <-.
    destruct n as [|n]; simpl in Hn.
    + injection Hn as ->. rewrite iter_before_0.
      destruct (GetNextInternal_record_inv _ _ _ _ _ Hr0 Hs He)
        as (Hp & Hpe & e' & Hmap).
      exists out, eos, (GetNext (input_impl_ it) eos), e'. by simpl.
    + rewrite iter_before_S.
      destruct (IH _ _ _ Hrs' Hn Hs He)
        as (out1 & eos1 & p & e' & Hc & Hp & Hps & Hpe & Hmap).
      exists out1, eos1, p, e'. simpl.
      by rewrite <- (GetNextInternal_pulls_once _ _ _ _ _ Hr0).
Qed.

Lemma GetNext_calls_exhausted map_func it calls :
  end_is_final -> exhausted (input_impl_ it) ->
  exists rs, GetNext_calls map_func it calls = Some rs
             /\ length rs = length calls
             /\ Forall (fun r => r_status r = OK
                                 /\ r_end_of_sequence r = true) rs.
Proof.
  intros Hfinal. revert it.
  induction calls as [|[out eos] calls IH]; intros it Hex.
  - exists []. by repeat split.
  - destruct (Hex eos) as [Hs He]. simpl.
    rewrite (GetNextInternal_pull_end _ _ _ _ _ eq_refl Hs He). simpl.
    edestruct (IH (MkIterator (p_next (GetNext (input_impl_ it) eos))
                     (captured_func_ it))) as (rs & -> & Hlen & Hall).
    { simpl. by apply Hfinal. }
    simpl. eexists. split; [reflexivity|]. split; [by simpl; f_equal|].
    by constructor.
Qed.

(** C8, as the code has it.  The iterator keeps no flag of its own.  When
    the upstream pull of a call reports the end of the sequence, and the
    upstream iterator keeps reporting it once it has, that call and every
    later call return OK with [end_of_sequence = true], whatever the map
    function is. *)
Theorem GetNext_calls_end_persists map_func it out eos calls :
  end_is_final ->
  p_status (GetNext (input_impl_ it) eos) = OK ->
  p_eos (GetNext (input_impl_ it) eos) = true ->
  exists rs, GetNext_calls map_func it ((out, eos) :: calls) = Some rs
             /\ length rs = S (length calls)
             /\ Forall (fun r => r_status r = OK
                                 /\ r_end_of_sequence r = true) rs.
Proof.
  intros Hfinal Hs He. simpl.
  rewrite (GetNextInternal_pull_end _ _ _ _ _ eq_refl Hs He). simpl.
  edestruct (GetNext_calls_exhausted map_func
               (MkIterator (p_next (GetNext (input_impl_ it) eos))
                  (captured_func_ it)) calls)
    as (rs & -> & Hlen & Hall); [done| |].
  { simpl. by apply Hfinal. }
  simpl. eexists. split; [reflexivity|]. split; [by simpl; f_equal|].
  by constructor.
Qed.

End GetNext_calls_facts.

(** ** The short-circuit closure *)

Lemma vector_at_lookup {A : Type} (v : list A) (k : Z) :
  0 <= k < Z.of_nat (length v) -> vector_at v k = v !! Z.to_nat k.
Proof.
  intros Hk. unfold vector_at.
  by destruct (Z.ltb_spec k (Z.of_nat (length v))); [|lia].
Qed.

Lemma to_size_t_small (z : Z) : 0 <= z < 2 ^ 64 -> to_size_t z = z.
Proof. intros Hz. unfold to_size_t. by apply Z.mod_small. Qed.

Section short_circuit_facts.
Context {V E : Type} `{!CapturedFunction V E}.

Variables (indices : list Z) (can_move : list bool).
Variables (e : E) (a out : list (Tensor V)).

(** [indices] is a [std::vector<int>]. *)
Hypothesis plan_ints : Forall is_int indices.
Hypothesis plan_valid :
  valid_plan indices (length a) (length (captured_inputs e)).
Hypothesis can_move_size : length can_move = length indices.
Hypothesis plan_moves_last_use : moves_last_use indices can_move.

Local Abbreviation loop_inv := (short_circuit_inv can_move e a out).

Lemma loop_inv_init : loop_inv [] (MkFrame a out).
Proof.
  split; [done|]. split.
  - exists []. split; [constructor|]. simpl. by rewrite app_nil_r.
  - intros k t Hk. split; [|done]. by intros (i & Hi & _).
Qed.

Lemma relocates_snoc done idx k :
  relocates (done ++ [idx]) can_move k
  <-> relocates done can_move k
      \/ (idx = Z.of_nat k /\ can_move !! length done = Some true).
Proof.
  unfold relocates. split.
  - intros (i & Hi & Hb). apply lookup_snoc_Some in Hi as [[Hlt Hi]|[-> ->]].
    + left. eauto.
    + by right.
  - intros [(i & Hi & Hb)|[-> Hb]].
    + exists i. split; [|done]. apply lookup_app_l_Some, Hi.
    + exists (length done). split; [|done]. apply list_lookup_middle. done.
Qed.

Lemma loop_inv_push done idx t fr :
  loop_inv done fr ->
  selected a e idx = Some t ->
  (forall k, idx = Z.of_nat k -> (k < length a)%nat ->
             can_move !! length done = Some false) ->
  loop_inv (done ++ [idx]) (push_back t fr).
Proof.
  intros (Hlen & (sel & Hsel & Hout) & Hargs) Ht Hb.
  split; [done|]. split.
  - exists (sel ++ [t]). split.
    + apply Forall2_app; [done|]. by repeat constructor.
    + simpl. by rewrite Hout, app_assoc.
  - intros k t' Hk. destruct (Hargs k t' Hk) as [Hm Hn]. simpl.
    split; intros Hr.
    + apply relocates_snoc in Hr as [Hr|[-> Hr]]; [by apply Hm|].
      apply lookup_lt_Some in Hk. rewrite (Hb k eq_refl Hk) in Hr. done.
    + apply Hn. intros Hr'. apply Hr, relocates_snoc. by left.
Qed.

Lemma short_circuit_step_inv done idx rest fr :
  indices = done ++ idx :: rest ->
  loop_inv done fr ->
  exists fr',
    short_circuit_step (captured_inputs e) (length a) can_move
      (length done) idx fr = Some fr'
    /\ loop_inv (done ++ [idx]) fr'.
Proof.
  intros Hsplit Hinv.
  assert (Hidx : indices !! length done = Some idx).
  { rewrite Hsplit. by apply list_lookup_middle. }
  assert (Hrange : 0 <= idx
            < Z.of_nat (length a) + Z.of_nat (length (captured_inputs e))).
  { unfold valid_plan in plan_valid. rewrite Forall_lookup in plan_valid.
    by apply (plan_valid _ _ Hidx). }
  assert (Hsmall : to_size_t idx = idx).
  { rewrite Forall_lookup in plan_ints.
    pose proof (plan_ints _ _ Hidx) as Hint. unfold is_int in Hint.
    apply to_size_t_small. lia. }
  unfold short_circuit_step. rewrite Hsmall.
  destruct (Z.ltb_spec idx (Z.of_nat (length a))) as [Hlt|Hge].
  - (* a pulled argument *)
    destruct (lookup_lt_is_Some_2 can_move (length done)) as [b Hb].
    { rewrite can_move_size. by eapply lookup_lt_Some. }
    destruct (lookup_lt_is_Some_2 a (Z.to_nat idx)) as [t Ht]; [lia|].
    assert (Hfresh : ~ relocates done can_move (Z.to_nat idx)).
    { intros (j & Hj & Hbj). rewrite Z2Nat.id in Hj by lia.
      assert (Hjlt : (j < length done)%nat) by by eapply lookup_lt_Some.
      assert (Hj' : indices !! j = Some idx).
      { rewrite Hsplit. by apply lookup_app_l_Some. }
      pose proof (plan_moves_last_use j (length done) idx Hjlt Hj' Hidx).
      congruence. }
    pose proof Hinv as (Hlen & Hsel & Hargs).
    destruct (Hargs _ _ Ht) as [_ Hsame]. specialize (Hsame Hfresh).
    rewrite Hb. simpl.
    rewrite vector_at_lookup by (rewrite Hlen; lia).
    rewrite Hsame. simpl.
    assert (Hselected : selected a e idx = Some t).
    { unfold selected, source_slot. simpl. rewrite Hsmall.
      destruct (Z.ltb_spec idx (Z.of_nat (length a))); [|lia].
      by rewrite vector_at_lookup by lia. }
    destruct b.
    + (* relocated *)
      eexists. split; [reflexivity|].
      destruct Hsel as (sel & Hsel & Hout).
      split; [by simpl; rewrite length_insert|]. split.
      * exists (sel ++ [t]). split.
        -- apply Forall2_app; [done|]. by repeat constructor.
        -- simpl. by rewrite Hout, app_assoc.
      * intros k t' Hk. destruct (Hargs k t' Hk) as [Hm Hn]. simpl.
        destruct (decide (k = Z.to_nat idx)) as [->|Hne].
        -- split; intros Hr.
           ++ apply list_lookup_insert_eq. rewrite Hlen. lia.
           ++ exfalso. apply Hr, relocates_snoc. right.
              split; [lia|done].
        -- rewrite list_lookup_insert_ne by done. split; intros Hr.
           ++ apply relocates_snoc in Hr as [Hr|[-> _]]; [by apply Hm|].
              by rewrite Nat2Z.id in Hne.
           ++ apply Hn. intros Hr'. apply Hr, relocates_snoc. by left.
    + (* duplicated *)
      eexists. split; [reflexivity|].
      apply loop_inv_push; [done|done|]. by intros.
  - (* a captured input *)
    destruct (lookup_lt_is_Some_2 (captured_inputs e)
                (Z.to_nat (idx - Z.of_nat (length a)))) as [t Ht]; [lia|].
    rewrite vector_at_lookup by lia. rewrite Ht. simpl.
    eexists. split; [reflexivity|].
    apply loop_inv_push; [done| |intros k -> Hk; lia].
    unfold selected, source_slot. simpl. rewrite Hsmall.
    destruct (Z.ltb_spec idx (Z.of_nat (length a))); [lia|].
    by rewrite vector_at_lookup by lia.
Qed.

Lemma short_circuit_loop_inv rest : forall done fr,
  indices = done ++ rest ->
  loop_inv done fr ->
  exists fr',
    short_circuit_loop (captured_inputs e) (length a) can_move rest
      (length done) fr = Some fr'
    /\ loop_inv indices fr'.
Proof.
  induction rest as [|idx rest IH]; intros done fr Hsplit Hinv.
  - rewrite app_nil_r in Hsplit. subst done. by exists fr.
  - destruct (short_circuit_step_inv done idx rest fr Hsplit Hinv)
      as (fr1 & Hstep & Hinv1).
    simpl. rewrite Hstep. simpl.
    destruct (IH (done ++ [idx]) fr1) as (fr' & Hloop & Hinv');
      [by rewrite <- app_assoc|done|].
    exists fr'. split; [|done].
    by rewrite length_app, Nat.add_1_r in Hloop.
Qed.

Lemma short_circuit_body_inv :
  exists fr, short_circuit_body indices can_move e a out = Some fr
             /\ loop_inv indices fr.
Proof.
  apply (short_circuit_loop_inv indices [] (MkFrame a out));
    [done|apply loop_inv_init].
Qed.

End short_circuit_facts.

Section GetNextInternal_short_circuit_facts.
Context {V W R I E : Type}.
Context `{!IteratorBase V W R I} `{!CapturedFunction V E}.

(** C2, as the code has it.  Under a non-empty plan whose entries are
    valid for the pulled arguments and the captured inputs, and whose move
    vector never relocates a value that a later entry still reads, a call
    whose upstream pull succeeds with a record returns OK without ending
    the sequence.  It appends to the caller's [out_tensors], in plan
    order, the value each entry selects from the pulled arguments (index
    below the argument count) or from the captured inputs (otherwise).  A
    slot of the arguments is relocated exactly when an entry with
    [can_move] set selects it; every other slot keeps its value, and the
    captured function, with its captured inputs, is left as it was. *)
Theorem GetNextInternal_short_circuit
    (move_vector : list Z -> list bool) (indices : list Z)
    (it : Iterator I E) (out : list (Tensor V)) (eos : bool)
    (a : list (Tensor V)) (i' : I) :
  indices <> [] ->
  GetNext (input_impl_ it) eos = MkPulled OK a false i' ->
  Forall is_int indices ->
  valid_plan indices (length a)
    (length (captured_inputs (captured_func_ it))) ->
  length (move_vector indices) = length indices ->
  moves_last_use indices (move_vector indices) ->
  exists fr sel,
    short_circuit_body indices (move_vector indices)
      (captured_func_ it) a out = Some fr
    /\ GetNextInternal (MakeDataset_map_func move_vector indices)
         it out eos
       = Some (MkResult OK (out ++ sel) false
                 (MkIterator i' (captured_func_ it)))
    /\ out_tensors fr = out ++ sel
    /\ Forall2 (fun idx t => selected a (captured_func_ it) idx = Some t)
         indices sel
    /\ forall k t, a !! k = Some t ->
         (relocates indices (move_vector indices) k ->
            args fr !! k = Some MovedFrom)
         /\ (~ relocates indices (move_vector indices) k ->
            args fr !! k = Some t).
Proof.
  intros Hne Hpull Hint Hvalid Hlen Hlast.
  destruct (short_circuit_body_inv indices (move_vector indices)
              (captured_func_ it) a out Hint Hvalid Hlen Hlast)
    as (fr & Hbody & _ & (sel & Hsel & Hout) & Hargs).
  exists fr, sel. split; [done|]. split; [|done].
  rewrite (GetNextInternal_pull_record _ _ _ _ _ Hpull eq_refl eq_refl).
  simpl. destruct indices as [|idx rest]; [done|].
  unfold MakeDataset_map_func, short_circuit.
  rewrite Hbody. simpl. by rewrite Hout.
Qed.

End GetNextInternal_short_circuit_facts.

(** ** The move vector *)

Lemma ComputeMoveVector_lookup (indices : list Z) (i : nat) (idx : Z) :
  indices !! i = Some idx ->
  ComputeMoveVector indices !! i
  = Some (Nat.eqb (count_occ Z.eq_dec indices idx) 1).
Proof.
  intros Hi. unfold ComputeMoveVector.
  change (map ?f ?l) with (f <$> l).
  by rewrite list_lookup_fmap, Hi.
Qed.

Lemma count_occ_lookup (l : list Z) (x : Z) :
  (0 < count_occ Z.eq_dec l x)%nat <-> exists j, l !! j = Some x.
Proof.
  rewrite <- list_elem_of_lookup, list_elem_of_In.
  rewrite (count_occ_In Z.eq_dec). unfold gt. done.
Qed.

(** A value is counted once exactly when it stands at one position only. *)
Lemma count_occ_once (l : list Z) : forall (i : nat) (x : Z),
  l !! i = Some x ->
  count_occ Z.eq_dec l x = 1%nat <-> (forall j, l !! j = Some x -> j = i).
Proof.
  induction l as [|y l IH]; intros i x Hi; [done|].
  simpl. destruct (Z.eq_dec y x) as [->|Hne].
  - pose proof (count_occ_lookup l x) as Hpos. split.
    + intros Hone j Hj.
      assert (Hnone : forall k, l !! k <> Some x).
      { intros k Hk. assert ((0 < count_occ Z.eq_dec l x)%nat); [|lia].
        apply Hpos. eauto. }
      destruct i as [|i]; [|by destruct (Hnone i)].
      destruct j as [|j]; [done|by destruct (Hnone j)].
    + intros Huniq. destruct i as [|i].
      * destruct (count_occ Z.eq_dec l x) eqn:Hc; [done|].
        destruct Hpos as [(j & Hj) _]; [lia|].
        by specialize (Huniq (S j) Hj).
      * by specialize (Huniq 0%nat eq_refl).
  - destruct i as [|i]; simpl in Hi; [congruence|].
    rewrite (IH i x Hi). split.
    + intros Huniq [|j] Hj; simpl in Hj; [congruence|].
      f_equal. by apply Huniq.
    + intros Huniq j Hj. specialize (Huniq (S j) Hj). lia.
Qed.

(** The planner's move vector has one entry per plan entry and never
    relocates a value that a later entry still reads. *)
Lemma ComputeMoveVector_length (indices : list Z) :
  length (ComputeMoveVector indices) = length indices.
Proof. unfold ComputeMoveVector. apply length_map. Qed.

Lemma ComputeMoveVector_moves_last_use (indices : list Z) :
  moves_last_use indices (ComputeMoveVector indices).
Proof.
  intros i j idx Hlt Hi Hj.
  rewrite (ComputeMoveVector_lookup _ _ _ Hi). f_equal.
  apply Nat.eqb_neq. intros Hone.
  pose proof (proj1 (count_occ_once _ _ _ Hi) Hone j Hj). lia.
Qed.

(** C3.  For the move vector the planner computes from a plan: the entry
    at position [i] is true exactly when the source index at [i] stands at
    no other position of the plan; and for the plan [[2; 0; 2]] the move
    vector is [[false; true; false]]. *)
Theorem ComputeMoveVector_exactly_once (indices : list Z) (i : nat) (idx : Z) :
  indices !! i = Some idx ->
  (exists b, ComputeMoveVector indices !! i = Some b
             /\ (b = true <-> forall j, indices !! j = Some idx -> j = i))
  /\ ComputeMoveVector [2; 0; 2] = [false; true; false].
Proof.
  intros Hi. split; [|reflexivity].
  eexists. split; [by apply ComputeMoveVector_lookup|].
  rewrite Nat.eqb_eq. by apply count_occ_once.
Qed.

(** * Further properties of the iterator *)

Section Iterator_more_facts.
Context {V W R I E : Type}.
Context `{!IteratorBase V W R I} `{!CapturedFunction V E}.

Implicit Types (it : Iterator I E) (out a : list (Tensor V)).
Implicit Types (map_func : MapIteratorFunction V E).
Implicit Types (calls : list (list (Tensor V) * bool)).
Implicit Types (rs : list (Result V I E)).

(** X1.  An [OutOfRange] status returned by [GetNextInternal] is the
    upstream pull's own status: the stage turns the map function's
    [OutOfRange] into the end of the sequence, but passes an upstream
    [OutOfRange] on as the failure it is, with the flag as the pull left
    it and without calling the map function. *)
Theorem GetNextInternal_OutOfRange_is_upstream map_func it out eos r :
  GetNextInternal map_func it out eos = Some r ->
  errors.IsOutOfRange (r_status r) = true ->
  errors.IsOutOfRange (p_status (GetNext (input_impl_ it) eos)) = true
  /\ r = MkResult (p_status (GetNext (input_impl_ it) eos)) out
           (p_eos (GetNext (input_impl_ it) eos))
           (MkIterator (p_next (GetNext (input_impl_ it) eos))
              (captured_func_ it)).
Proof.
  intros Hr Hoor.
  destruct (Status_ok_dec (p_status (GetNext (input_impl_ it) eos)))
    as [Hs|Hs].
  - exfalso. destruct (p_eos (GetNext (input_impl_ it) eos)) eqn:He.
    + rewrite (GetNextInternal_pull_end _ _ _ _ _ eq_refl Hs He) in Hr.
      injection Hr as <-. discriminate Hoor.
    + rewrite (GetNextInternal_pull_record _ _ _ _ _ eq_refl Hs He) in Hr.
      destruct (map_func _ _ _) as [[[s out'] e']|]; [simpl in Hr|done].
      injection Hr as <-.
      destruct (errors.IsOutOfRange s) eqn:Hs'; simpl in Hoor; congruence.
  - rewrite (GetNextInternal_pull_failed _ _ _ _ _ eq_refl Hs) in Hr.
    injection Hr as <-. by split.
Qed.

Lemma iter_before_input map_func : forall calls it rs n,
  GetNext_calls map_func it calls = Some rs ->
  (n <= length calls)%nat ->
  input_impl_ (iter_before it rs n)
  = upstream_after (input_impl_ it) (take n (calls.*2)).
Proof.
  induction calls as [|[out eos] calls IH]; intros it rs n Hrun Hn.
  - injection Hrun as <-. simpl in Hn. replace n with 0%nat by lia.
    by rewrite iter_before_0.
  - simpl in Hrun.
    destruct (GetNextInternal map_func it out eos) as [r0|] eqn:Hr0;
      [simpl in Hrun|done].
    destruct (GetNext_calls map_func (r_iter r0) calls) as [rs'|] eqn:Hrs';
      [simpl in Hrun|done].
    injection Hrun as <-.
    destruct n as [|n]; [by rewrite iter_before_0|].
    rewrite iter_before_S. simpl in Hn |- *.
    rewrite (IH _ _ n Hrs') by lia.
    by rewrite (GetNextInternal_pulls_once _ _ _ _ _ Hr0).
Qed.

Lemma GetNext_calls_length map_func : forall calls it rs,
  GetNext_calls map_func it calls = Some rs -> length rs = length calls.
Proof.
  induction calls as [|[out eos] calls IH]; intros it rs Hrun.
  - by injection Hrun as <-.
  - simpl in Hrun.
    destruct (GetNextInternal map_func it out eos) as [r0|];
      [simpl in Hrun|done].
    destruct (GetNext_calls map_func (r_iter r0) calls) as [rs'|] eqn:Hrs';
      [simpl in Hrun|done].
    injection Hrun as <-. simpl. f_equal. by eapply IH.
Qed.

(** X2.  A sequence of calls returns one result per call, and before its
    [n]-th call the upstream iterator has been pulled exactly [n] times,
    whatever the earlier calls returned: a record whose transformation
    failed or ended the sequence is not pulled again. *)
Theorem GetNext_calls_pull_per_call map_func it calls rs n :
  GetNext_calls map_func it calls = Some rs ->
  (n <= length calls)%nat ->
  length rs = length calls
  /\ input_impl_ (iter_before it rs n)
     = upstream_after (input_impl_ it) (take n (calls.*2)).
Proof.
  intros Hrun Hn. split.
  - by eapply GetNext_calls_length.
  - by eapply iter_before_input.
Qed.

(** A map function that leaves the captured function as it is keeps it so
    over any sequence of calls. *)
Lemma iter_before_captured map_func :
  (forall e a out s out' e',
     map_func e a out = Some (s, out', e') -> e' = e) ->
  forall calls it rs n,
    GetNext_calls map_func it calls = Some rs ->
    captured_func_ (iter_before it rs n) = captured_func_ it.
Proof.
  intros Hkeep.
  induction calls as [|[out eos] calls IH]; intros it rs n Hrun.
  - injection Hrun as <-. unfold iter_before. by rewrite take_nil.
  - simpl in Hrun.
    destruct (GetNextInternal map_func it out eos) as [r0|] eqn:Hr0;
      [simpl in Hrun|done].
    destruct (GetNext_calls map_func (r_iter r0) calls) as [rs'|] eqn:Hrs';
      [simpl in Hrun|done].
    injection Hrun as <-.
    destruct n as [|n]; [by rewrite iter_before_0|].
    rewrite iter_before_S, (IH _ _ n Hrs').
    unfold GetNextInternal in Hr0.
    destruct (negb _); [by injection Hr0 as <-|].
    destruct (p_eos _); [by injection Hr0 as <-|].
    destruct (map_func _ _ _) as [[[s out'] e']|] eqn:Hmap;
      [simpl in Hr0|done].
    apply Hkeep in Hmap as ->.
    destruct (errors.IsOutOfRange s); by injection Hr0 as <-.
Qed.

Lemma SaveInternal_OK_inv (writer w' : W) it it1 :
  SaveInternal writer it = (OK, w', it1) ->
  exists i1, SaveInput writer (input_impl_ it) = (OK, w', i1)
             /\ it1 = MkIterator i1 (captured_func_ it).
Proof.
  unfold SaveInternal.
  destruct (SaveInput writer (input_impl_ it)) as [[s w1] i1].
  destruct s; simpl; intros Hsave; [|discriminate].
  injection Hsave as <- <-. by exists i1.
Qed.

(** X3.  Given an upstream iterator whose restore undoes the pulls made
    since its save: after a successful [SaveInternal], any sequence of
    calls, and then [RestoreInternal] from what was saved, the upstream
    iterator is the saved one, while the captured function is as the calls
    have left it: the restore does not undo what the calls did to it. *)
Theorem RestoreInternal_after_calls (reader_of : W -> R) map_func
    (writer w' : W) it it1 calls rs :
  restores_saved reader_of ->
  SaveInternal writer it = (OK, w', it1) ->
  GetNext_calls map_func it1 calls = Some rs ->
  RestoreInternal (reader_of w') (iter_before it1 rs (length rs))
  = (OK, MkIterator (input_impl_ it1)
           (captured_func_ (iter_before it1 rs (length rs)))).
Proof.
  intros Hlaw Hsave Hrun.
  destruct (SaveInternal_OK_inv _ _ _ _ Hsave) as (i1 & Hinput & ->).
  unfold RestoreInternal.
  rewrite (iter_before_input _ _ _ _ (length rs) Hrun)
    by (by rewrite (GetNext_calls_length _ _ _ _ Hrun)).
  simpl. by rewrite (Hlaw _ _ _ _ _ Hinput).
Qed.

(** X4.  Under a short-circuit plan the round trip is exact: after a
    successful [SaveInternal], any sequence of calls, and then
    [RestoreInternal] from what was saved, the iterator is the one the save
    has left, so the calls that follow return what they would have
    returned right after the save. *)
Theorem RestoreInternal_short_circuit_round_trip (reader_of : W -> R)
    (indices : list Z) (can_move : list bool) (writer w' : W) it it1
    calls rs :
  restores_saved reader_of ->
  SaveInternal writer it = (OK, w', it1) ->
  GetNext_calls (short_circuit indices can_move) it1 calls = Some rs ->
  RestoreInternal (reader_of w') (iter_before it1 rs (length rs))
  = (OK, it1).
Proof.
  intros Hlaw Hsave Hrun.
  destruct (SaveInternal_OK_inv _ _ _ _ Hsave) as (i1 & Hinput & ->).
  unfold RestoreInternal.
  rewrite (iter_before_input _ _ _ _ (length rs) Hrun)
    by (by rewrite (GetNext_calls_length _ _ _ _ Hrun)).
  rewrite (iter_before_captured (short_circuit indices can_move))
    with (calls := calls) (it := MkIterator i1 (captured_func_ it));
    [|intros e a out s out' e' Hsc|done].
  - simpl. by rewrite (Hlaw _ _ _ _ _ Hinput).
  - unfold short_circuit in Hsc.
    destruct (short_circuit_body _ _ _ _ _); [simpl in Hsc|done].
    by injection Hsc as _ _ <-.
Qed.

Lemma GetNext_calls_never_run map_func (e1 : E) : forall calls (i : I),
  end_is_final -> exhausted i ->
  exists rs,
    GetNext_calls map_func (MkIterator i e1) calls = Some rs
    /\ Forall2 (fun c r => r_status r = OK /\ r_end_of_sequence r = true
                           /\ r_out_tensors r = c.1
                           /\ captured_func_ (r_iter r) = e1) calls rs.
Proof.
  intros calls i Hfinal. revert i.
  induction calls as [|[out eos] calls IH]; intros i Hex.
  - exists []. split; [done|constructor].
  - destruct (Hex eos) as [Hs He]. simpl.
    rewrite (GetNextInternal_pull_end map_func (MkIterator i e1) out eos _
               eq_refl Hs He). simpl.
    destruct (IH (p_next (GetNext i eos))) as (rs & -> & Hall).
    { by apply Hfinal. }
    simpl. eexists. split; [reflexivity|]. by constructor.
Qed.

(** X5.  When the upstream iterator is exhausted from the start (and stays
    so), [Initialize] instantiates the captured function, and every call
    that follows returns OK with [end_of_sequence = true], leaves the
    caller's [out_tensors] as they were and leaves the captured function as
    [Instantiate] left it: the function is never run. *)
Theorem Initialize_exhausted_never_runs map_func (i : I) (e e1 : E) calls :
  end_is_final -> exhausted i ->
  Instantiate e = (OK, e1) ->
  Initialize (OK, i) e = (OK, Some (MkIterator i e1))
  /\ exists rs,
       GetNext_calls map_func (MkIterator i e1) calls = Some rs
       /\ Forall2 (fun c r => r_status r = OK /\ r_end_of_sequence r = true
                              /\ r_out_tensors r = c.1
                              /\ captured_func_ (r_iter r) = e1) calls rs.
Proof.
  intros Hfinal Hex Hinst. split.
  - unfold Initialize. simpl. by rewrite Hinst.
  - by apply GetNext_calls_never_run.
Qed.

End Iterator_more_facts.

(** * Further properties of the short-circuit closure *)

Lemma to_size_t_negative (z : Z) :
  - 2 ^ 64 <= z < 0 -> to_size_t z = z + 2 ^ 64.
Proof.
  intros Hz. unfold to_size_t.
  rewrite <- (Z_mod_plus_full z 1 (2 ^ 64)).
  apply Z.mod_small. lia.
Qed.

Section short_circuit_more_facts.
Context {V E : Type} `{!CapturedFunction V E}.

Implicit Types (fr : Frame V) (captured a out : list (Tensor V)).
Implicit Types (can_move : list bool) (rest indices : list Z).

(** What an iteration that has a result does to the frame. *)
Lemma short_circuit_step_Some captured num_args can_move i idx fr fr' :
  short_circuit_step captured num_args can_move i idx fr = Some fr' ->
  length (args fr') = length (args fr)
  /\ (exists t, out_tensors fr' = out_tensors fr ++ [t])
  /\ (forall k, args fr !! k = Some MovedFrom ->
                args fr' !! k = Some MovedFrom).
Proof.
  unfold short_circuit_step. intros Hstep.
  destruct (to_size_t idx <? Z.of_nat num_args).
  - destruct (can_move !! i) as [b|]; [simpl in Hstep|done].
    destruct (vector_at (args fr) (to_size_t idx)) as [t|];
      [simpl in Hstep|done].
    destruct b; injection Hstep as <-; simpl.
    + split; [by rewrite length_insert|]. split; [by exists t|].
      intros k Hk. destruct (decide (Z.to_nat (to_size_t idx) = k)) as [<-|].
      * apply list_lookup_insert_eq. by eapply lookup_lt_Some.
      * by rewrite list_lookup_insert_ne.
    + split; [done|]. split; [by exists t|done].
  - destruct (vector_at captured _) as [t|]; [simpl in Hstep|done].
    injection Hstep as <-. simpl. split; [done|]. split; [by exists t|done].
Qed.

Lemma short_circuit_loop_Some captured num_args can_move :
  forall rest i fr fr',
    short_circuit_loop captured num_args can_move rest i fr = Some fr' ->
    length (args fr') = length (args fr)
    /\ (exists sel, out_tensors fr' = out_tensors fr ++ sel
                    /\ length sel = length rest)
    /\ (forall k, args fr !! k = Some MovedFrom ->
                  args fr' !! k = Some MovedFrom).
Proof.
  induction rest as [|idx rest IH]; intros i fr fr' Hloop.
  - injection Hloop as <-. split; [done|]. split; [|done].
    exists []. by rewrite app_nil_r.
  - simpl in Hloop.
    destruct (short_circuit_step _ _ _ _ _ _) as [fr1|] eqn:Hstep;
      [simpl in Hloop|done].
    destruct (short_circuit_step_Some _ _ _ _ _ _ _ Hstep)
      as (Hlen1 & (t & Hout1) & Hmoved1).
    destruct (IH _ _ _ Hloop) as (Hlen & (sel & Hout & Hsel) & Hmoved).
    split; [congruence|]. split.
    + exists (t :: sel). rewrite Hout, Hout1, <- app_assoc.
      split; [done|]. simpl. by rewrite Hsel.
    + intros k Hk. by apply Hmoved, Hmoved1.
Qed.

Lemma short_circuit_loop_app captured num_args can_move :
  forall l1 l2 i fr,
    short_circuit_loop captured num_args can_move (l1 ++ l2) i fr
    = fr1 ← short_circuit_loop captured num_args can_move l1 i fr;
      short_circuit_loop captured num_args can_move l2 (i + length l1) fr1.
Proof.
  induction l1 as [|idx l1 IH]; intros l2 i fr; simpl.
  - by rewrite Nat.add_0_r.
  - destruct (short_circuit_step _ _ _ _ _ _) as [fr1|]; [simpl|done].
    rewrite IH. by rewrite Nat.add_succ_r.
Qed.

(** X6.  Whenever the short-circuit closure returns, it returns OK, it has
    left the captured function as it was, and it has appended one tensor
    per plan entry to the output vector, whose previous content is kept. *)
Theorem short_circuit_appends indices can_move (e e' : E) a out out' s :
  short_circuit indices can_move e a out = Some (s, out', e') ->
  s = OK /\ e' = e
  /\ exists sel, out' = out ++ sel /\ length sel = length indices.
Proof.
  unfold short_circuit, short_circuit_body. intros Hsc.
  destruct (short_circuit_loop _ _ _ _ _ _) as [fr|] eqn:Hloop;
    [simpl in Hsc|done].
  injection Hsc as <- <- <-.
  destruct (short_circuit_loop_Some _ _ _ _ _ _ _ Hloop)
    as (_ & Hsel & _).
  by repeat split.
Qed.

(** One iteration has a result exactly when its entry is valid. *)
Lemma short_circuit_step_valid captured num_args can_move i idx fr fr' :
  is_int idx ->
  Z.of_nat num_args + Z.of_nat (length captured) <= 2 ^ 64 - 2 ^ 31 ->
  length (args fr) = num_args ->
  short_circuit_step captured num_args can_move i idx fr = Some fr' ->
  0 <= idx < Z.of_nat num_args + Z.of_nat (length captured).
Proof.
  unfold is_int, short_circuit_step, vector_at. intros Hint Hsize Hlen.
  destruct (Z.ltb_spec idx 0) as [Hneg|Hpos].
  - rewrite to_size_t_negative by lia.
    destruct (Z.ltb_spec (idx + 2 ^ 64) (Z.of_nat num_args)); [lia|].
    destruct (Z.ltb_spec (idx + 2 ^ 64 - Z.of_nat num_args)
                (Z.of_nat (length captured))); [lia|done].
  - rewrite to_size_t_small by lia.
    destruct (Z.ltb_spec idx (Z.of_nat num_args)); [lia|].
    destruct (Z.ltb_spec (idx - Z.of_nat num_args)
                (Z.of_nat (length captured))); [lia|done].
Qed.

Lemma short_circuit_step_defined captured num_args can_move i idx fr :
  is_int idx ->
  0 <= idx < Z.of_nat num_args + Z.of_nat (length captured) ->
  length (args fr) = num_args ->
  (i < length can_move)%nat ->
  is_Some (short_circuit_step captured num_args can_move i idx fr).
Proof.
  unfold is_int, short_circuit_step. intros Hint Hvalid Hlen Hi.
  rewrite to_size_t_small by lia.
  destruct (Z.ltb_spec idx (Z.of_nat num_args)).
  - destruct (lookup_lt_is_Some_2 can_move i Hi) as [b ->]. simpl.
    rewrite vector_at_lookup by lia.
    destruct (lookup_lt_is_Some_2 (args fr) (Z.to_nat idx)) as [t ->];
      [lia|].
    simpl. by destruct b.
  - rewrite vector_at_lookup by lia.
    destruct (lookup_lt_is_Some_2 captured
                (Z.to_nat (idx - Z.of_nat num_args))) as [t ->]; [lia|].
    done.
Qed.

Lemma short_circuit_loop_defined_iff captured num_args can_move :
  Z.of_nat num_args + Z.of_nat (length captured) <= 2 ^ 64 - 2 ^ 31 ->
  forall rest i fr,
    Forall is_int rest ->
    length (args fr) = num_args ->
    (i + length rest <= length can_move)%nat ->
    is_Some (short_circuit_loop captured num_args can_move rest i fr)
    <-> valid_plan rest num_args (length captured).
Proof.
  intros Hsize. unfold valid_plan.
  induction rest as [|idx rest IH]; intros i fr Hint Hlen Hi.
  - simpl. split; [constructor|by eexists].
  - apply Forall_cons in Hint as [Hidx Hint]. simpl in Hi |- *.
    rewrite Forall_cons. split.
    + intros [fr' Hloop].
      destruct (short_circuit_step _ _ _ _ _ _) as [fr1|] eqn:Hstep;
        [simpl in Hloop|done].
      split; [by eapply short_circuit_step_valid|].
      apply (IH (S i) fr1); [done| |lia|by eexists].
      destruct (short_circuit_step_Some _ _ _ _ _ _ _ Hstep) as [-> _].
      done.
    + intros [Hvalid Hrest].
      destruct (short_circuit_step_defined captured num_args can_move i idx
                  fr Hidx Hvalid Hlen) as [fr1 Hstep]; [lia|].
      rewrite Hstep. simpl.
      apply (IH (S i) fr1); [done| |lia|done].
      destruct (short_circuit_step_Some _ _ _ _ _ _ _ Hstep) as [-> _].
      done.
Qed.

(** X7.  For a plan of [int]s with a move vector of its length, and
    vectors of realistic sizes, the short-circuit closure indexes its
    vectors within their bounds exactly when every entry is valid for the
    argument count plus the number of captured inputs: an entry that is
    negative or too large makes the call undefined. *)
Theorem short_circuit_body_defined_iff_valid indices can_move (e : E) a out :
  Forall is_int indices ->
  length can_move = length indices ->
  Z.of_nat (length a) + Z.of_nat (length (captured_inputs e))
    <= 2 ^ 64 - 2 ^ 31 ->
  is_Some (short_circuit_body indices can_move e a out)
  <-> valid_plan indices (length a) (length (captured_inputs e)).
Proof.
  intros Hint Hlen Hsize. unfold short_circuit_body.
  apply short_circuit_loop_defined_iff; [done|done|done|simpl; lia].
Qed.

(** X8.  A value that an entry with [can_move] set has relocated is gone
    for a later entry that selects the same argument: the later output is
    the moved-from tensor. *)
Theorem short_circuit_reads_moved_value indices can_move (e : E) a out fr
    (i j : nat) (idx : Z) :
  short_circuit_body indices can_move e a out = Some fr ->
  (i < j)%nat ->
  indices !! i = Some idx -> indices !! j = Some idx ->
  0 <= idx < Z.of_nat (length a) -> idx < 2 ^ 64 ->
  can_move !! i = Some true ->
  out_tensors fr !! (length out + j)%nat = Some MovedFrom.
Proof.
  intros Hbody Hlt Hi Hj Hidx Hsmall Hmove.
  assert (Hsplit1 : indices = take i indices ++ idx :: drop (S i) indices)
    by (by rewrite take_drop_middle).
  assert (Hj' : drop (S i) indices !! (j - S i)%nat = Some idx).
  { rewrite lookup_drop. by replace (S i + (j - S i))%nat with j by lia. }
  pose proof (take_drop_middle _ _ _ Hj') as Hsplit2.
  set (l1 := take i indices) in *.
  set (l2 := take (j - S i) (drop (S i) indices)) in *.
  set (l3 := drop (S (j - S i)) (drop (S i) indices)) in *.
  assert (Hl1 : length l1 = i).
  { unfold l1. rewrite length_take. apply lookup_lt_Some in Hi. lia. }
  assert (Hl2 : length l2 = (j - S i)%nat).
  { unfold l2. rewrite length_take. apply lookup_lt_Some in Hj'. lia. }
  unfold short_circuit_body in Hbody.
  rewrite Hsplit1, <- Hsplit2 in Hbody.
  rewrite short_circuit_loop_app in Hbody.
  destruct (short_circuit_loop _ _ _ l1 _ _) as [fr1|] eqn:Hloop1;
    [simpl in Hbody|done].
  destruct (short_circuit_loop_Some _ _ _ _ _ _ _ Hloop1)
    as (Hlen1 & (sel1 & Hout1 & Hsel1) & _).
  simpl in Hlen1, Hout1. rewrite Hl1 in Hbody.
  (* the relocating entry *)
  destruct (short_circuit_step _ _ _ i idx fr1) as [fr2|] eqn:Hstep2;
    [simpl in Hbody|done].
  assert (Hfr2 : args fr2 !! Z.to_nat idx = Some MovedFrom
                 /\ length (out_tensors fr2) = (length out + S i)%nat).
  { unfold short_circuit_step in Hstep2.
    rewrite to_size_t_small in Hstep2 by lia.
    destruct (Z.ltb_spec idx (Z.of_nat (length a))); [|lia].
    rewrite Hmove in Hstep2. simpl in Hstep2.
    destruct (vector_at (args fr1) idx) as [t|]; [simpl in Hstep2|done].
    injection Hstep2 as <-. simpl. split.
    - apply list_lookup_insert_eq. rewrite Hlen1. lia.
    - rewrite Hout1, !length_app. simpl. lia. }
  destruct Hfr2 as [Hmoved2 Hlen2].
  pose proof (short_circuit_step_Some _ _ _ _ _ _ _ Hstep2) as (Hargs2 & _).
  (* the entries between the two *)
  rewrite short_circuit_loop_app in Hbody.
  destruct (short_circuit_loop _ _ _ l2 _ _) as [fr3|] eqn:Hloop3;
    [simpl in Hbody|done].
  destruct (short_circuit_loop_Some _ _ _ _ _ _ _ Hloop3)
    as (Hargs3 & (sel3 & Hout3 & Hsel3) & Hmoved3).
  specialize (Hmoved3 _ Hmoved2).
  (* the later entry *)
  destruct (short_circuit_step _ _ _ _ idx fr3) as [fr4|] eqn:Hstep4;
    [simpl in Hbody|done].
  assert (Hfr4 : out_tensors fr4 = out_tensors fr3 ++ [MovedFrom]).
  { unfold short_circuit_step in Hstep4.
    rewrite to_size_t_small in Hstep4 by lia.
    destruct (Z.ltb_spec idx (Z.of_nat (length a))); [|lia].
    destruct (can_move !! _) as [b|]; [simpl in Hstep4|done].
    rewrite vector_at_lookup in Hstep4 by lia.
    rewrite Hmoved3 in Hstep4. simpl in Hstep4.
    by destruct b; injection Hstep4 as <-. }
  destruct (short_circuit_loop_Some _ _ _ _ _ _ _ Hbody)
    as (_ & (sel5 & Hout5 & _) & _).
  rewrite Hout5, Hfr4, <- app_assoc.
  assert (Hpos : (length out + j)%nat = length (out_tensors fr3)).
  { rewrite Hout3, length_app, Hlen2, Hsel3, Hl2. lia. }
  rewrite Hpos. by apply list_lookup_middle.
Qed.

(** X9.  The identity plan [0, 1, ..., n - 1] over [n] arguments returns
    the pulled record itself, appended to the output vector, whatever the
    move vector of length [n] is. *)
Theorem short_circuit_identity_plan can_move (e : E) a out :
  Z.of_nat (length a) <= 2 ^ 31 ->
  length can_move = length a ->
  short_circuit (Z.of_nat <$> seq 0 (length a)) can_move e a out
  = Some (OK, out ++ a, e).
Proof.
  intros Hsize Hlen.
  set (indices := Z.of_nat <$> seq 0 (length a)).
  assert (Hlookup : forall k idx,
            indices !! k = Some idx ->
            idx = Z.of_nat k /\ (k < length a)%nat).
  { intros k idx Hk. unfold indices in Hk.
    rewrite list_lookup_fmap in Hk.
    destruct (seq 0 (length a) !! k) as [m|] eqn:Hm; [|done].
    apply lookup_seq in Hm as [-> ?]. injection Hk as <-. done. }
  assert (Hindices : length indices = length a).
  { unfold indices. by rewrite length_fmap, length_seq. }
  destruct (short_circuit_body_inv indices can_move e a out)
    as (fr & Hbody & _ & (sel & Hsel & Hout) & _).
  - apply Forall_lookup. intros k idx Hk.
    destruct (Hlookup _ _ Hk) as [-> ?]. unfold is_int. lia.
  - apply Forall_lookup. intros k idx Hk.
    destruct (Hlookup _ _ Hk) as [-> ?]. lia.
  - congruence.
  - intros i j idx Hlt Hi Hj.
    destruct (Hlookup _ _ Hi) as [-> ?].
    destruct (Hlookup _ _ Hj) as [Heq ?]. lia.
  - unfold short_circuit. rewrite Hbody. simpl. rewrite Hout.
    assert (Heq : sel = a); [|by rewrite Heq].
    apply list_eq. intros k.
    destruct (indices !! k) as [idx|] eqn:Hk.
    + destruct (Forall2_lookup_l _ _ _ _ _ Hsel Hk) as (t & Ht & Hselected).
      destruct (Hlookup _ _ Hk) as [-> Hka].
      rewrite Ht, <- Hselected.
      unfold selected, source_slot. simpl.
      rewrite to_size_t_small by lia.
      destruct (Z.ltb_spec (Z.of_nat k) (Z.of_nat (length a))); [|lia].
      rewrite vector_at_lookup by lia. by rewrite Nat2Z.id.
    + apply lookup_ge_None in Hk.
      rewrite !lookup_ge_None_2; [done|lia|].
      apply Forall2_length in Hsel. lia.
Qed.

End short_circuit_more_facts.

Section GetNextInternal_plan_facts.
Context {V W R I E : Type}.
Context `{!IteratorBase V W R I} `{!CapturedFunction V E}.

(** X10.  Under a non-empty plan, a call whose upstream pull succeeds with
    a record and which returns at all returns OK without ending the
    sequence, with the captured function as it was and with one tensor per
    plan entry appended to the caller's [out_tensors]: a short-circuited
    map never fails and never ends the sequence by itself. *)
Theorem GetNextInternal_plan_never_ends
    (move_vector : list Z -> list bool) (indices : list Z)
    (it : Iterator I E) (out : list (Tensor V)) (eos : bool)
    (a : list (Tensor V)) (i' : I) (r : Result V I E) :
  indices <> [] ->
  GetNext (input_impl_ it) eos = MkPulled OK a false i' ->
  GetNextInternal (MakeDataset_map_func move_vector indices) it out eos
  = Some r ->
  r_status r = OK /\ r_end_of_sequence r = false
  /\ r_iter r = MkIterator i' (captured_func_ it)
  /\ exists sel, r_out_tensors r = out ++ sel
                 /\ length sel = length indices.
Proof.
  intros Hne Hpull Hr.
  rewrite (GetNextInternal_pull_record _ _ _ _ _ Hpull eq_refl eq_refl)
    in Hr.
  simpl in Hr. destruct indices as [|idx rest]; [done|].
  unfold MakeDataset_map_func, short_circuit, short_circuit_body in Hr.
  destruct (short_circuit_loop _ _ _ _ _ _) as [fr|] eqn:Hloop;
    [simpl in Hr|done].
  injection Hr as <-. simpl.
  destruct (short_circuit_loop_Some _ _ _ _ _ _ _ Hloop) as (_ & Hsel & _).
  by repeat split.
Qed.

End GetNextInternal_plan_facts.

(** * Properties of the dataset's serialization *)

Section AsGraphDefInternal_facts.
Context {V B N A F D T E : Type}.
Context `{!CapturedFunction V E} `{!Dataset.GraphValues V F T}.
Context `{!Dataset.DatasetGraphDefBuilder V B N A F D T (Dataset.t D F E)}.



End AsGraphDefInternal_facts.

(** * The properties on the concrete collaborators *)

Import Fixture.

Lemma Cursor_end_is_final : end_is_final (I := Cursor).
Proof.
  intros c eos Hs He eos'. revert Hs He. simpl. unfold Cursor_GetNext.
  destruct (items c !! pos c) as [[[|code msg] rec]|] eqn:Hitem; simpl;
    try discriminate.
  intros _ _. by rewrite Hitem.
Defined.

(** The second record of [stops_early] makes [Run] return [OutOfRange]:
    the call returns OK and ends the sequence. *)
Lemma GetNextInternal_executor_status_witness :
  GetNextInternal (MakeDataset_map_func ComputeMoveVector [])
    (MkIterator (advance (over [[1; 2]; [0; 5]; [3]])) (fresh [])) [] false
  = Some (MkResult OK [] true
            (MkIterator (advance (advance (over [[1; 2]; [0; 5]; [3]])))
               (ran (fresh [])))).
Proof.
  refine (proj1 (GetNextInternal_executor_status ComputeMoveVector
                   (MkIterator (advance (over [[1; 2]; [0; 5]; [3]])) (fresh []))
                   [] false (record [0; 5])
                   (advance (advance (over [[1; 2]; [0; 5]; [3]])))
                   (errors.OutOfRange "stop") [] (ran (fresh []))
                   _ _) _);
    reflexivity.
Defined.

(** Under the plan [[2; 0; 2]] the first record of [projecting] yields the
    first captured input, the first argument and the first captured input
    again; only the first argument is relocated. *)
Lemma GetNextInternal_short_circuit_witness :
  exists fr sel,
    short_circuit_body [2; 0; 2] (ComputeMoveVector [2; 0; 2])
      (captured_func_ projecting) (record [10; 11]) [] = Some fr
    /\ GetNextInternal (MakeDataset_map_func ComputeMoveVector [2; 0; 2])
         projecting [] false
       = Some (MkResult OK ([] ++ sel) false
                 (MkIterator (advance (input_impl_ projecting))
                    (captured_func_ projecting)))
    /\ out_tensors fr = [] ++ sel
    /\ Forall2
         (fun idx t =>
            selected (record [10; 11]) (captured_func_ projecting) idx = Some t)
         [2; 0; 2] sel
    /\ forall k t, record [10; 11] !! k = Some t ->
         (relocates [2; 0; 2] (ComputeMoveVector [2; 0; 2]) k ->
            args fr !! k = Some MovedFrom)
         /\ (~ relocates [2; 0; 2] (ComputeMoveVector [2; 0; 2]) k ->
            args fr !! k = Some t).
Proof.
  apply (GetNextInternal_short_circuit ComputeMoveVector [2; 0; 2]
           projecting [] false (record [10; 11])
           (advance (input_impl_ projecting))).
  - discriminate.
  - reflexivity.
  - repeat constructor; unfold is_int; lia.
  - repeat constructor; simpl; lia.
  - reflexivity.
  - intros i j idx Hlt Hi Hj.
    destruct i as [|[|[|i]]]; destruct j as [|[|[|j]]];
      simpl in *; try lia; try congruence; try reflexivity;
      try (rewrite lookup_nil in Hj; discriminate);
      rewrite lookup_nil in Hi; discriminate.
Defined.

(** A captured input is never relocated: under the plan [[2; 0]] with two
    arguments, position 0 selects the first captured input and has
    [can_move] set, and the captured input is in place after the call. *)
Lemma short_circuit_captured_input_not_relocated :
  ComputeMoveVector [2; 0] = [true; true]
  /\ (fr ← short_circuit_body [2; 0] [true; true] (fresh [7])
             (record [10; 11]) [];
      source_slot 2 fr (fresh [7]) 2) = Some (Holds 7)
  /\ (fr ← short_circuit_body [2; 0] [true; true] (fresh [7])
             (record [10; 11]) [];
      source_slot 2 fr (fresh [7]) 2) <> Some MovedFrom
  /\ (fr ← short_circuit_body [2; 0] [true; true] (fresh [7])
             (record [10; 11]) [];
      source_slot 2 fr (fresh [7]) 0) = Some MovedFrom.
Proof. repeat split; try reflexivity. discriminate. Qed.

Lemma ComputeMoveVector_exactly_once_witness :
  (exists b, ComputeMoveVector [2; 0; 2] !! 1%nat = Some b
             /\ (b = true <-> forall j, [2; 0; 2] !! j = Some 0 -> j = 1%nat))
  /\ ComputeMoveVector [2; 0; 2] = [false; true; false].
Proof. apply (ComputeMoveVector_exactly_once [2; 0; 2] 1 0). reflexivity. Defined.

(** [RestoreInternal] leaves the captured function as it was: it is not
    the one a new [Instantiate] would leave. *)
Lemma RestoreInternal_does_not_instantiate :
  fst (RestoreInternal 1%nat stops_early) = OK
  /\ captured_func_ (snd (RestoreInternal 1%nat stops_early))
     <> snd (Instantiate (captured_func_ stops_early))
  /\ instantiations (captured_func_ (snd (RestoreInternal 1%nat stops_early)))
     = 1%nat
  /\ instantiations (snd (Instantiate (captured_func_ stops_early))) = 2%nat.
Proof. repeat split; try reflexivity. discriminate. Qed.

Lemma RestoreInternal_is_RestoreInput_witness :
  RestoreInternal 1%nat stops_early
  = (OK, MkIterator (MkCursor (items (input_impl_ stops_early)) 1)
           (captured_func_ stops_early)).
Proof.
  apply (RestoreInternal_is_RestoreInput 1%nat stops_early OK
           (MkCursor (items (input_impl_ stops_early)) 1)).
  reflexivity.
Defined.

Lemma GetNextInternal_upstream_end_witness :
  GetNextInternal full_invoke empty_upstream [Holds 4] false
  = Some (MkResult OK [Holds 4] true
            (MkIterator (over []) (captured_func_ empty_upstream))).
Proof.
  apply (GetNextInternal_upstream_end full_invoke empty_upstream [Holds 4]
           false [] (over [])).
  reflexivity.
Defined.

(** Two calls return the two records of [projecting] in the upstream
    order; shown for the second. *)
Lemma GetNext_calls_fifo_witness :
  exists rs r,
    GetNext_calls full_invoke projecting [fresh_call; fresh_call] = Some rs
    /\ rs !! 1%nat = Some r
    /\ r_out_tensors r = record [20; 21]
    /\ exists out eos p e',
         [fresh_call; fresh_call] !! 1%nat = Some (out, eos)
         /\ upstream_pulls (input_impl_ projecting)
              ([fresh_call; fresh_call].*2) !! 1%nat = Some p
         /\ p_status p = OK /\ p_eos p = false
         /\ full_invoke (captured_func_ (iter_before projecting rs 1))
              (p_args p) out
            = Some (OK, r_out_tensors r, e').
Proof.
  eexists _, _. split; [reflexivity|]. split; [reflexivity|].
  split; [reflexivity|].
  eapply (GetNext_calls_fifo full_invoke projecting
            [fresh_call; fresh_call]); reflexivity.
Defined.

Lemma SaveInternal_is_SaveInput_witness :
  SaveInternal [] (MkIterator (advance (over [[1; 2]])) (fresh []))
  = (OK, [1%nat], MkIterator (advance (over [[1; 2]])) (fresh [])).
Proof.
  apply (SaveInternal_is_SaveInput []
           (MkIterator (advance (over [[1; 2]])) (fresh []))
           OK [1%nat] (advance (over [[1; 2]]))).
  reflexivity.
Defined.

(** After the captured function has stopped the iteration at the second
    record, the next call returns the third record. *)
Lemma GetNext_calls_resume_after_OutOfRange :
  (fun r => (r_status r, r_end_of_sequence r, r_out_tensors r))
    <$> default [] (GetNext_calls full_invoke stops_early
                      [fresh_call; fresh_call; fresh_call])
  = [(OK, false, record [1; 2]); (OK, true, []); (OK, false, record [3])].
Proof. reflexivity. Qed.

Lemma GetNext_calls_end_persists_witness :
  exists rs,
    GetNext_calls full_invoke empty_upstream
      (fresh_call :: [fresh_call; fresh_call]) = Some rs
    /\ length rs = 3%nat
    /\ Forall (fun r => r_status r = OK /\ r_end_of_sequence r = true) rs.
Proof.
  apply (GetNext_calls_end_persists full_invoke empty_upstream [] false
           [fresh_call; fresh_call] Cursor_end_is_final);
    reflexivity.
Defined.

Lemma GetNextInternal_end_excludes_error_witness :
  (r_end_of_sequence
     (MkResult (Error UNAVAILABLE "io") [Holds 4] false
        (MkIterator (advance (input_impl_ failing_upstream)) (fresh [])))
   = true ->
   p_eos (GetNext (input_impl_ failing_upstream) false) = false
   \/ p_status (GetNext (input_impl_ failing_upstream) false) = OK ->
   Error UNAVAILABLE "io" = OK)
  /\ (Error UNAVAILABLE "io" <> OK ->
      false = p_eos (GetNext (input_impl_ failing_upstream) false)
      /\ (p_status (GetNext (input_impl_ failing_upstream) false) = OK ->
          false = false)).
Proof.
  apply (GetNextInternal_end_excludes_error full_invoke failing_upstream
           [Holds 4] false
           (GetNext (input_impl_ failing_upstream) false)
           (MkResult (Error UNAVAILABLE "io") [Holds 4] false
              (MkIterator (advance (input_impl_ failing_upstream)) (fresh []))));
    reflexivity.
Defined.

Lemma GetNextInternal_upstream_error_witness :
  GetNextInternal full_invoke failing_upstream [Holds 4] false
  = Some (MkResult (Error UNAVAILABLE "io") [Holds 4] false
            (MkIterator (advance (input_impl_ failing_upstream))
               (captured_func_ failing_upstream))).
Proof.
  apply (GetNextInternal_upstream_error full_invoke failing_upstream
           [Holds 4] false (Error UNAVAILABLE "io") [] false
           (advance (input_impl_ failing_upstream))).
  - reflexivity.
  - discriminate.
Defined.

(** ** The further properties on the concrete collaborators *)

Lemma Cursor_upstream_after_items (flags : list bool) : forall c : Cursor,
  items (upstream_after c flags) = items c.
Proof.
  induction flags as [|eos flags IH]; intros c; [done|].
  simpl. rewrite IH. unfold Cursor_GetNext.
  by destruct (items c !! pos c) as [[[|code msg] rec]|].
Defined.

Lemma Cursor_restores_saved : restores_saved (I := Cursor) read_back.
Proof.
  intros writer w' c c1 flags Hsave. simpl in Hsave.
  injection Hsave as <- <-. simpl.
  rewrite Cursor_upstream_after_items. unfold read_back.
  rewrite last_snoc. simpl. by destruct c.
Defined.

Lemma Cursor_over_nil_exhausted : exhausted (over []).
Proof. intros eos. by split. Defined.

(** An upstream [OutOfRange] comes back as the error it is. *)
Lemma GetNextInternal_OutOfRange_is_upstream_witness :
  errors.IsOutOfRange
    (p_status
       (GetNext (MkCursor [(errors.OutOfRange "eof", [])] 0) false)) = true
  /\ MkResult (errors.OutOfRange "eof") [Holds 4] false
       (MkIterator (advance (MkCursor [(errors.OutOfRange "eof", [])] 0))
          (fresh []))
     = MkResult
         (p_status
            (GetNext (MkCursor [(errors.OutOfRange "eof", [])] 0) false))
         [Holds 4]
         (p_eos (GetNext (MkCursor [(errors.OutOfRange "eof", [])] 0) false))
         (MkIterator
            (p_next
               (GetNext (MkCursor [(errors.OutOfRange "eof", [])] 0) false))
            (fresh [])).
Proof.
  apply (GetNextInternal_OutOfRange_is_upstream full_invoke
           (MkIterator (MkCursor [(errors.OutOfRange "eof", [])] 0) (fresh []))
           [Holds 4] false
           (MkResult (errors.OutOfRange "eof") [Holds 4] false
              (MkIterator
                 (advance (MkCursor [(errors.OutOfRange "eof", [])] 0))
                 (fresh []))));
    reflexivity.
Defined.

(** The second record of [stops_early] ends the sequence; the third call
    finds the upstream iterator after two pulls. *)
Lemma GetNext_calls_pull_per_call_witness :
  exists rs,
    GetNext_calls full_invoke stops_early
      [fresh_call; fresh_call; fresh_call] = Some rs
    /\ length rs = 3%nat
    /\ input_impl_ (iter_before stops_early rs 2)
       = upstream_after (input_impl_ stops_early)
           (take 2 ([fresh_call; fresh_call; fresh_call].*2)).
Proof.
  eexists. split; [reflexivity|].
  eapply (GetNext_calls_pull_per_call full_invoke stops_early
            [fresh_call; fresh_call; fresh_call]);
    [reflexivity|simpl; lia].
Defined.

(** Saved at the start, [stops_early] is restored to its first record
    after two calls; the captured function has run twice and stays so. *)
Lemma RestoreInternal_after_calls_witness :
  exists rs,
    GetNext_calls full_invoke stops_early [fresh_call; fresh_call] = Some rs
    /\ RestoreInternal (read_back [0%nat])
         (iter_before stops_early rs (length rs))
       = (OK, MkIterator (input_impl_ stops_early)
                (captured_func_ (iter_before stops_early rs (length rs))))
    /\ runs (captured_func_ (iter_before stops_early rs (length rs)))
       = 2%nat.
Proof.
  eexists. split; [reflexivity|]. split; [|reflexivity].
  eapply (RestoreInternal_after_calls read_back full_invoke [] [0%nat]
            stops_early stops_early [fresh_call; fresh_call]);
    [exact Cursor_restores_saved|reflexivity|reflexivity].
Defined.

Lemma RestoreInternal_short_circuit_round_trip_witness :
  exists rs,
    GetNext_calls (short_circuit [2; 0; 2] [false; true; false]) projecting
      [fresh_call; fresh_call] = Some rs
    /\ RestoreInternal (read_back [0%nat])
         (iter_before projecting rs (length rs))
       = (OK, projecting).
Proof.
  eexists. split; [reflexivity|].
  eapply (RestoreInternal_short_circuit_round_trip read_back [2; 0; 2]
            [false; true; false] [] [0%nat] projecting projecting
            [fresh_call; fresh_call]);
    [exact Cursor_restores_saved|reflexivity|reflexivity].
Defined.

Lemma Initialize_exhausted_never_runs_witness :
  Initialize (OK, over []) (MkCounting 0 0 [])
  = (OK, Some (MkIterator (over []) (fresh [])))
  /\ exists rs,
       GetNext_calls full_invoke (MkIterator (over []) (fresh []))
         [fresh_call; ([Holds 4], true)] = Some rs
       /\ Forall2 (fun c r => r_status r = OK /\ r_end_of_sequence r = true
                              /\ r_out_tensors r = c.1
                              /\ captured_func_ (r_iter r) = fresh [])
            [fresh_call; ([Holds 4], true)] rs.
Proof.
  apply (Initialize_exhausted_never_runs full_invoke (over [])
           (MkCounting 0 0 []) (fresh []) [fresh_call; ([Holds 4], true)]
           Cursor_end_is_final Cursor_over_nil_exhausted).
  reflexivity.
Defined.

Lemma short_circuit_appends_witness :
  OK = OK /\ fresh [7; 8] = fresh [7; 8]
  /\ exists sel, [Holds 1; Holds 7; Holds 10; Holds 7] = [Holds 1] ++ sel
                 /\ length sel = length [2; 0; 2].
Proof.
  apply (short_circuit_appends [2; 0; 2] [false; true; false]
           (fresh [7; 8]) (fresh [7; 8]) (record [10; 11]) [Holds 1]
           [Holds 1; Holds 7; Holds 10; Holds 7] OK).
  reflexivity.
Defined.

(** The plan [[0; 4]] over two arguments and two captured inputs has an
    entry past the captured inputs. *)
Lemma short_circuit_body_defined_iff_valid_witness :
  is_Some (short_circuit_body [0; 4] [true; true] (fresh [7; 8])
             (record [10; 11]) [])
  <-> valid_plan [0; 4] (length (record [10; 11]))
        (length (captured_inputs (fresh [7; 8]))).
Proof.
  apply (short_circuit_body_defined_iff_valid [0; 4] [true; true]
           (fresh [7; 8]) (record [10; 11]) []).
  - repeat constructor; unfold is_int; lia.
  - reflexivity.
  - simpl. lia.
Defined.

Lemma short_circuit_reads_moved_value_witness :
  out_tensors
    (MkFrame [MovedFrom; Holds 11] [Holds 1; Holds 10; MovedFrom])
    !! (length [Holds 1] + 1)%nat
  = Some (MovedFrom : Tensor Z).
Proof.
  apply (short_circuit_reads_moved_value [0; 0] [true; false] (fresh [])
           (record [10; 11]) [Holds 1]
           (MkFrame [MovedFrom; Holds 11] [Holds 1; Holds 10; MovedFrom])
           0 1 0);
    try reflexivity; simpl; lia.
Defined.

Lemma short_circuit_identity_plan_witness :
  short_circuit (Z.of_nat <$> seq 0 (length (record [10; 11])))
    [true; false] (fresh [7]) (record [10; 11]) [Holds 1]
  = Some (OK, [Holds 1] ++ record [10; 11], fresh [7]).
Proof.
  apply (short_circuit_identity_plan [true; false] (fresh [7])
           (record [10; 11]) [Holds 1]).
  - simpl. lia.
  - reflexivity.
Defined.

Lemma GetNextInternal_plan_never_ends_witness :
  exists r,
    GetNextInternal (MakeDataset_map_func ComputeMoveVector [2; 0; 2])
      projecting [Holds 1] false = Some r
    /\ r_status r = OK /\ r_end_of_sequence r = false
    /\ r_iter r = MkIterator (advance (input_impl_ projecting))
                    (captured_func_ projecting)
    /\ exists sel, r_out_tensors r = [Holds 1] ++ sel
                   /\ length sel = length [2; 0; 2].
Proof.
  eexists. split; [reflexivity|].
  eapply (GetNextInternal_plan_never_ends ComputeMoveVector [2; 0; 2]
            projecting [Holds 1] false (record [10; 11])
            (advance (input_impl_ projecting)));
    [discriminate|reflexivity|reflexivity].
Defined.

